(** * Intel calling conventions of qiling ([qiling/cc/intel.py])

    A shallow embedding of the Intel family of calling conventions:
    the slot arithmetic of [QlIntel64] and [QlIntel32], the two-slot
    read of 64-bit values on 32-bit conventions, the return-address
    primitives of [QlIntelBaseCC], the callee-cleanup [unwind] of
    [stdcall] and the argument-register tables of the five concrete
    conventions.

    Python integers are unbounded, so every [int] is a [Z]; [//] on a
    positive divisor is [Z.div], [<<] is [Z.shiftl], [|] is [Z.lor].
    Methods that touch the emulated CPU run in the state monad over
    [QlArch]. *)

From Stdlib Require Import ZArith List Lia Bool.
From Stdlib Require Import Strings.Byte.
From ExtLib Require Import Structures.Monad Structures.MonadState.
From ExtLib Require Import Data.Monads.StateMonad Data.Monads.IdentityMonad.
Import ListNotations.
Import MonadNotation.
Local Open Scope Z_scope.
Local Open Scope monad_scope.

(** ** Register identifiers

    The constants imported from [unicorn.x86_const] (lines 5-9).  They
    are members of one enumeration of the emulator library, hence
    pairwise distinct. *)
Inductive x86_reg : Type :=
| UC_X86_REG_EAX
| UC_X86_REG_RAX
| UC_X86_REG_RCX
| UC_X86_REG_RDI
| UC_X86_REG_RDX
| UC_X86_REG_RSI
| UC_X86_REG_R8
| UC_X86_REG_R9
| UC_X86_REG_R10.

(** Modelled from the spec: [make_arg_list] of [qiling/cc/__init__.py],
    which is not among the sources.  The spec (4.1) gives it as a
    builder that takes register ids and "returns an immutable ordered
    register list; empty list signals an all-stack convention".  The
    variadic arguments of the Python call are the list [regs]. *)
Definition make_arg_list (regs : list x86_reg) : list x86_reg := regs.

(** ** The emulated execution context

    [self.arch] of a convention: the native pointer size in bytes, the
    stack-pointer register [regs.arch_sp], the other registers and a
    byte-addressed memory.  Intel machines store words least
    significant byte first. *)
Record QlArch : Type := mkArch {
  pointersize : Z;
  arch_sp : Z;
  regs : x86_reg -> Z;
  mem : Z -> byte
}.

Definition set_sp (a : QlArch) (sp : Z) : QlArch :=
  mkArch (pointersize a) sp (regs a) (mem a).

Definition set_mem (a : QlArch) (m : Z -> byte) : QlArch :=
  mkArch (pointersize a) (arch_sp a) (regs a) m.

(** A value cut to the native word of the context: the stack-pointer
    register and the addresses put on the bus are [pointersize] bytes
    wide, so whatever exceeds that width is dropped. *)
Definition wrap_word (a : QlArch) (v : Z) : Z :=
  v mod 2 ^ (8 * pointersize a).

(** The setter of [regs.arch_sp]: the register keeps the value written
    modulo its width. *)
Definition write_sp (a : QlArch) (v : Z) : QlArch :=
  set_sp a (wrap_word a v).

Definition byte_to_Z (b : byte) : Z := Z.of_N (Byte.to_N b).

Definition byte_of_Z (z : Z) : byte :=
  match Byte.of_N (Z.to_N (z mod 256)) with
  | Some b => b
  | None => x00
  end.

(** [n] bytes starting at [addr], least significant first. *)
Fixpoint load_le (m : Z -> byte) (addr : Z) (n : nat) : Z :=
  match n with
  | O => 0
  | S k => byte_to_Z (m addr) + 256 * load_le m (addr + 1) k
  end.

(** The [n] low-order bytes of [v] written at [addr .. addr + n - 1]. *)
Definition store_le (m : Z -> byte) (addr n v : Z) : Z -> byte :=
  fun x =>
    if (addr <=? x) && (x <? addr + n)
    then byte_of_Z (v / 2 ^ (8 * (x - addr)))
    else m x.

(** Pointer-sized memory accessors of the execution context; the
    address is one native word wide. *)
Definition read_ptr (a : QlArch) (addr : Z) : Z :=
  load_le (mem a) (wrap_word a addr) (Z.to_nat (pointersize a)).

Definition write_ptr (a : QlArch) (addr value : Z) : QlArch :=
  set_mem a (store_le (mem a) (wrap_word a addr) (pointersize a) value).

(** Methods of a convention are computations over the context. *)
Definition CPU : Type -> Type := state QlArch.

(** Modelled from the spec: [arch.stack_push] of the execution context
    ([qiling/arch], not among the sources).  Spec 4.2 describes its
    effect through [set_return_address]: it "decrements the
    stack-pointer register by one word size, writes [addr] at the new
    top of stack". *)
Definition stack_push (value : Z) : CPU unit :=
  a <- get ;;
  let sp := arch_sp a - pointersize a in
  put (write_ptr (set_sp a sp) sp value).

(** Modelled from the spec: [arch.stack_pop] of the execution context
    (not among the sources).  Spec 4.2, through [unwind]: it "reads the
    return address at current stack top, increments SP by one word
    size, returns the address". *)
Definition stack_pop : CPU Z :=
  a <- get ;;
  let data := read_ptr a (arch_sp a) in
  put (set_sp a (arch_sp a + pointersize a)) ;;
  ret data.

(** Modelled from the spec: the attribute [self._asize], set by the
    constructor of [QlCommonBaseCC] (not among the sources); spec 3
    calls it the stack slot size, the word size in bytes of the
    architecture the convention is bound to. *)
Definition _asize (a : QlArch) : Z := pointersize a.

(** ** Class hierarchy *)

Inductive convention : Type := amd64 | ms64 | macosx64 | cdecl | stdcall.

Inductive intel_class : Type := Intel64 | Intel32.

(** The width class each concrete convention extends (lines 58-99). *)
Definition parent (cc : convention) : intel_class :=
  match cc with
  | amd64 | ms64 | macosx64 => Intel64
  | cdecl | stdcall => Intel32
  end.

(** Word size in bits of the systems a width class serves, as its
    docstring has it ("64-bit systems", "32-bit systems"). *)
Definition wordsize (cc : convention) : Z :=
  match parent cc with
  | Intel64 => 64
  | Intel32 => 32
  end.

Inductive cleanup_policy : Type := CallerCleanup | CalleeCleanup.

(** Who unwinds the arguments: the docstrings of [cdecl] and [stdcall]
    name the caller and the callee; the 64-bit conventions keep the
    base [unwind], which does no cleanup. *)
Definition cleanup (cc : convention) : cleanup_policy :=
  match cc with
  | stdcall => CalleeCleanup
  | _ => CallerCleanup
  end.

Module QlIntelBaseCC.

(** Lines 18-19. *)
Definition setReturnAddress (addr : Z) : CPU unit :=
  stack_push addr.

(** Lines 21-23: no cleanup, just pop out the return address. *)
Definition unwind (nslots : Z) : CPU Z :=
  stack_pop.

End QlIntelBaseCC.

Module QlIntel64.

Definition _retreg : x86_reg := UC_X86_REG_RAX.

(** Lines 31-33. *)
Definition getNumSlots (argbits : Z) : Z :=
  Z.max argbits 64 / 64.

End QlIntel64.

Module QlIntel32.

Definition _retreg : x86_reg := UC_X86_REG_EAX.

(** Lines 41-43. *)
Definition getNumSlots (argbits : Z) : Z :=
  Z.max argbits 32 / 32.

Section GetRawParam.

(** The inherited accessor [super().getRawParam], bound to the
    convention.  Its second argument is optional in Python: [None]
    stands for a call that leaves the width out.  The monad [m]
    carries whatever the accessor does besides returning. *)
Context {m : Type -> Type} {Mm : Monad m}.
Variable super_getparam : Z -> option Z -> m Z.

(** Lines 45-56. *)
Definition getRawParam (slot nbits : Z) : m Z :=
  if nbits =? 64 then
    lo <- super_getparam slot None ;;
    hi <- super_getparam (slot + 1) None ;;
    ret (Z.lor (Z.shiftl hi 32) lo)
  else
    super_getparam slot (Some nbits).

End GetRawParam.

End QlIntel32.

(** ** Policy tables of the concrete conventions (lines 58-99) *)

Definition _argregs (cc : convention) : list x86_reg :=
  match cc with
  | amd64 =>
      make_arg_list [UC_X86_REG_RDI; UC_X86_REG_RSI; UC_X86_REG_RDX;
                     UC_X86_REG_R10; UC_X86_REG_R8; UC_X86_REG_R9]
  | ms64 =>
      make_arg_list [UC_X86_REG_RCX; UC_X86_REG_RDX; UC_X86_REG_R8;
                     UC_X86_REG_R9]
  | macosx64 =>
      make_arg_list [UC_X86_REG_RDI; UC_X86_REG_RSI; UC_X86_REG_RDX;
                     UC_X86_REG_RCX; UC_X86_REG_R8; UC_X86_REG_R9]
  | cdecl => make_arg_list []
  | stdcall => make_arg_list []
  end.

(** [ms64] sets [_shadow = 4]; the others keep the default of the
    common base class, which the policy table of the spec (4.5) gives
    as 0. *)
Definition _shadow (cc : convention) : Z :=
  match cc with
  | ms64 => 4
  | _ => 0
  end.

Definition _retreg (cc : convention) : x86_reg :=
  match parent cc with
  | Intel64 => QlIntel64._retreg
  | Intel32 => QlIntel32._retreg
  end.

(** Lines 101-106: the override of [stdcall].  Line 104 reads the
    stack-pointer register, adds the size of the slots and writes the
    sum back to the register. *)
Definition stdcall_unwind (nslots : Z) : CPU Z :=
  retaddr <- QlIntelBaseCC.unwind nslots ;;
  a <- get ;;
  put (write_sp a (arch_sp a + nslots * _asize a)) ;;
  ret retaddr.

(** ** Method resolution *)

Definition getNumSlots (cc : convention) (argbits : Z) : Z :=
  match parent cc with
  | Intel64 => QlIntel64.getNumSlots argbits
  | Intel32 => QlIntel32.getNumSlots argbits
  end.

Definition setReturnAddress (cc : convention) (addr : Z) : CPU unit :=
  QlIntelBaseCC.setReturnAddress addr.

Definition unwind (cc : convention) (nslots : Z) : CPU Z :=
  match cc with
  | stdcall => stdcall_unwind nslots
  | _ => QlIntelBaseCC.unwind nslots
  end.

(** [QlIntel32] overrides the accessor; [QlIntel64] inherits it. *)
Definition getRawParam {m : Type -> Type} {Mm : Monad m}
    (cc : convention) (super_getparam : Z -> option Z -> m Z)
    (slot nbits : Z) : m Z :=
  match parent cc with
  | Intel64 => super_getparam slot (Some nbits)
  | Intel32 => QlIntel32.getRawParam super_getparam slot nbits
  end.

(** ** The inherited slot accessor and its observers *)

Module QlCommonBaseCC.

(** Native-size read [offset] bytes above the stack top. *)
Definition stack_read (a : QlArch) (offset : Z) : Z :=
  read_ptr a (arch_sp a + offset).

(** Modelled from the spec: [QlCommonBaseCC.getRawParam] of
    [qiling/cc/__init__.py], which is not among the sources.  Spec 3
    and 4.1: slot indices below the length of the register list "map
    to registers in order", the others "map to stack offsets, offset
    by the shadow-space size", and the accessor "returns the value at
    the requested width".  A call that leaves the width out reads the
    native word as it is. *)
Definition getRawParam (cc : convention) (a : QlArch)
    (index : Z) (argbits : option Z) : Z :=
  let nregs := Z.of_nat (length (_argregs cc)) in
  let raw :=
    match (if 0 <=? index
           then nth_error (_argregs cc) (Z.to_nat index)
           else None) with
    | Some r => regs a r
    | None => stack_read a ((_shadow cc + (index - nregs)) * _asize a)
    end in
  match argbits with
  | None => raw
  | Some w => raw mod 2 ^ w
  end.

End QlCommonBaseCC.

(** The value [getRawParam] returns over a side-effect free base
    accessor [base]. *)
Definition get_raw (cc : convention) (base : Z -> option Z -> Z)
    (slot nbits : Z) : Z :=
  unIdent (getRawParam cc (fun s w => ret (base s w)) slot nbits).

(** One call of the base accessor: the slot and the width passed. *)
Definition access : Type := (Z * option Z)%type.

(** The base accessor, recording each call it receives. *)
Definition traced (base : Z -> option Z -> Z)
    (slot : Z) (argbits : option Z) : state (list access) Z :=
  modify (fun log => log ++ [(slot, argbits)]) ;;
  ret (base slot argbits).

(** The calls [getRawParam] makes to the base accessor, in order. *)
Definition get_raw_accesses (cc : convention) (base : Z -> option Z -> Z)
    (slot nbits : Z) : list access :=
  execState (getRawParam cc (traced base) slot nbits) [].

(** Running a method on a context: its result and the context left. *)
Definition result {A : Type} (c : CPU A) (a : QlArch) : A :=
  fst (runState c a).

Definition after {A : Type} (c : CPU A) (a : QlArch) : QlArch :=
  snd (runState c a).

(** A 64-bit and a 32-bit context with an empty, zeroed memory. *)
Definition arch64 (sp : Z) : QlArch :=
  mkArch 8 sp (fun _ => 0) (fun _ => x00).

Definition arch32 (sp : Z) : QlArch :=
  mkArch 4 sp (fun _ => 0) (fun _ => x00).

(** A value that fits the native word of the context. *)
Definition is_address (a : QlArch) (A : Z) : Prop :=
  0 <= A < 2 ^ (8 * pointersize a).

(** The return phase of a synthesized call (spec 4.5): the return
    address is set once, then the call is unwound once. *)
Definition call_and_return (cc : convention) (A nslots : Z) : CPU Z :=
  setReturnAddress cc A ;;
  unwind cc nslots.

(** A 32-bit context whose stack holds the words [0x55667788] (top)
    and [0x11223344] (next), pushed in reverse order. *)
Definition stack_ctx : QlArch :=
  after (stack_push 0x11223344 ;; stack_push 0x55667788) (arch32 0x7000).

(** Two synthesized calls, the second made before the first returns:
    both return addresses are set, then the inner call is unwound with
    nothing to clean and the outer one with [nslots]. *)
Definition nested_calls (cc : convention) (A B nslots : Z) : CPU (Z * Z) :=
  setReturnAddress cc A ;;
  setReturnAddress cc B ;;
  inner <- unwind cc 0 ;;
  outer <- unwind cc nslots ;;
  ret (inner, outer).

(** * Slot arithmetic *)

Lemma max_div_lower (w b : Z) : 0 < b -> 1 <= Z.max w b / b.
Proof.
  intros Hb. apply Z.div_le_lower_bound; lia.
Qed.

Lemma max_div_small (w b : Z) : 0 < b -> w < 2 * b -> Z.max w b / b = 1.
Proof.
  intros Hb Hw.
  symmetry. apply (Z.div_unique _ _ 1 (Z.max w b - b)); lia.
Qed.

Lemma max_div_double (w b : Z) :
  0 < b -> 2 * b <= w < 3 * b -> Z.max w b / b = 2.
Proof.
  intros Hb Hw.
  symmetry. apply (Z.div_unique _ _ 2 (Z.max w b - 2 * b)); lia.
Qed.

Lemma wordsize_pos (cc : convention) : 0 < wordsize cc.
Proof. destruct cc; reflexivity. Qed.

Lemma getNumSlots_wordsize (cc : convention) (w : Z) :
  getNumSlots cc w = Z.max w (wordsize cc) / wordsize cc.
Proof. destruct cc; reflexivity. Qed.

(** C2: for every convention and every width [w], [getNumSlots]
    is [max(w, wordsize) // wordsize], that is [max(w, 64) // 64] under
    [QlIntel64] and [max(w, 32) // 32] under [QlIntel32]; the result is
    always at least 1, and a width of at most 64 takes exactly one slot
    on a 64-bit convention. *)
Theorem getNumSlots_formula :
  forall (cc : convention) (w : Z),
    getNumSlots cc w = Z.max w (wordsize cc) / wordsize cc
    /\ (parent cc = Intel64 -> getNumSlots cc w = Z.max w 64 / 64)
    /\ (parent cc = Intel32 -> getNumSlots cc w = Z.max w 32 / 32)
    /\ 1 <= getNumSlots cc w
    /\ (wordsize cc = 64 -> w <= 64 -> getNumSlots cc w = 1).
Proof.
  intros cc w.
  pose proof (wordsize_pos cc) as Hpos.
  repeat split.
  - apply getNumSlots_wordsize.
  - intros Hp. unfold getNumSlots. rewrite Hp. reflexivity.
  - intros Hp. unfold getNumSlots. rewrite Hp. reflexivity.
  - rewrite getNumSlots_wordsize. apply max_div_lower, Hpos.
  - intros Hws Hw. rewrite getNumSlots_wordsize.
    apply max_div_small; lia.
Qed.

Lemma getNumSlots_formula_witness :
  getNumSlots ms64 17 = 1 /\ getNumSlots ms64 17 = Z.max 17 64 / 64.
Proof.
  destruct (getNumSlots_formula ms64 17) as (_ & H64 & _ & _ & Hone).
  split.
  - apply Hone; [reflexivity | lia].
  - apply H64. reflexivity.
Defined.

(** C3, as the spec words it, fails: between one and two words the
    division rounds down.  A 48-bit argument on [cdecl] lies strictly
    between 32 and 64 bits, yet takes one slot, not two. *)
Lemma getNumSlots_two_words_counterexample :
  wordsize cdecl < 48 <= 2 * wordsize cdecl
  /\ getNumSlots cdecl 48 = 1
  /\ getNumSlots cdecl 48 <> 2.
Proof.
  split; [unfold wordsize, parent; lia | split; [reflexivity | discriminate]].
Qed.

(** C3 (amended): for every convention, [getNumSlots w = 1] whenever
    [w < 2 * wordsize] (so whenever [w <= wordsize], and also for
    [w = 48] on a 32-bit convention), and [getNumSlots w = 2] whenever
    [2 * wordsize <= w < 3 * wordsize] (so for [w = 2 * wordsize]);
    [amd64] takes one slot for 64 bits and [cdecl] takes two. *)
Theorem getNumSlots_one_or_two :
  forall (cc : convention) (w : Z),
    (w <= wordsize cc -> getNumSlots cc w = 1)
    /\ (w < 2 * wordsize cc -> getNumSlots cc w = 1)
    /\ (2 * wordsize cc <= w < 3 * wordsize cc -> getNumSlots cc w = 2)
    /\ getNumSlots amd64 64 = 1
    /\ getNumSlots cdecl 64 = 2.
Proof.
  intros cc w.
  pose proof (wordsize_pos cc) as Hpos.
  rewrite getNumSlots_wordsize.
  repeat split.
  - intros Hw. apply max_div_small; lia.
  - intros Hw. apply max_div_small; lia.
  - intros Hw. apply max_div_double; lia.
Qed.

Lemma getNumSlots_one_or_two_witness :
  getNumSlots stdcall 48 = 1 /\ getNumSlots stdcall 64 = 2.
Proof.
  destruct (getNumSlots_one_or_two stdcall 48) as (_ & Hone & _).
  destruct (getNumSlots_one_or_two stdcall 64) as (_ & _ & Htwo & _).
  split.
  - apply Hone. unfold wordsize, parent. lia.
  - apply Htwo. unfold wordsize, parent. lia.
Defined.

(** * Memory: little-endian words *)

Lemma byte_to_of_Z (z : Z) : byte_to_Z (byte_of_Z z) = z mod 256.
Proof.
  unfold byte_to_Z, byte_of_Z.
  pose proof (Z.mod_pos_bound z 256 ltac:(lia)) as Hr.
  destruct (Byte.of_N (Z.to_N (z mod 256))) as [b|] eqn:E.
  - apply Byte.to_of_N in E. rewrite E. lia.
  - apply Byte.of_N_None_iff in E. lia.
Qed.

Lemma byte_to_Z_range (b : byte) : 0 <= byte_to_Z b < 256.
Proof.
  unfold byte_to_Z. pose proof (Byte.to_N_bounded b). lia.
Qed.

Lemma load_le_range (m : Z -> byte) (n : nat) :
  forall addr, 0 <= load_le m addr n < 2 ^ (8 * Z.of_nat n).
Proof.
  induction n as [|n IH]; intros addr.
  - simpl. lia.
  - cbn [load_le].
    replace (8 * Z.of_nat (S n)) with (8 + 8 * Z.of_nat n) by lia.
    rewrite Z.pow_add_r by lia.
    pose proof (byte_to_Z_range (m addr)).
    pose proof (IH (addr + 1)).
    change (2 ^ 8) with 256. nia.
Qed.

(** Reading [k] bytes inside a freshly stored word gives back the
    matching digits of the stored value. *)
Lemma load_store_le (m : Z -> byte) (addr n v : Z) (k : nat) :
  forall off, 0 <= off -> off + Z.of_nat k <= n ->
    load_le (store_le m addr n v) (addr + off) k
    = (v / 2 ^ (8 * off)) mod 2 ^ (8 * Z.of_nat k).
Proof.
  induction k as [|k IH]; intros off Hoff Hle.
  - simpl. rewrite Z.mod_1_r. reflexivity.
  - cbn [load_le].
    replace (addr + off + 1) with (addr + (off + 1)) by lia.
    rewrite IH by lia.
    unfold store_le at 1.
    replace ((addr <=? addr + off) && (addr + off <? addr + n)) with true
      by (symmetry; apply andb_true_iff;
          split; [apply Z.leb_le | apply Z.ltb_lt]; lia).
    rewrite byte_to_of_Z.
    replace (addr + off - addr) with off by lia.
    replace (8 * (off + 1)) with (8 * off + 8) by lia.
    rewrite Z.pow_add_r by lia.
    rewrite <- Z.div_div by lia.
    replace (8 * Z.of_nat (S k)) with (8 + 8 * Z.of_nat k) by lia.
    rewrite (Z.pow_add_r 2 8) by lia.
    change (2 ^ 8) with 256.
    symmetry. apply Z.rem_mul_r; [lia | apply Z.pow_pos_nonneg; lia].
Qed.

Lemma read_write_ptr (a : QlArch) (addr v : Z) :
  0 <= pointersize a ->
  read_ptr (write_ptr a addr v) addr = v mod 2 ^ (8 * pointersize a).
Proof.
  intros Hps. unfold read_ptr, write_ptr, wrap_word.
  cbn [mem pointersize set_mem].
  set (p := addr mod 2 ^ (8 * pointersize a)).
  replace p with (p + 0) at 2 by lia.
  rewrite load_store_le by lia.
  rewrite Z2Nat.id by lia.
  rewrite Z.mul_0_r, Z.div_1_r. reflexivity.
Qed.

Lemma read_ptr_range (a : QlArch) (addr : Z) :
  0 <= pointersize a ->
  0 <= read_ptr a addr < 2 ^ (8 * pointersize a).
Proof.
  intros Hps. unfold read_ptr.
  pose proof (load_le_range (mem a) (Z.to_nat (pointersize a))
                (wrap_word a addr)) as H.
  rewrite Z2Nat.id in H by lia. exact H.
Qed.

Lemma read_write_address (a : QlArch) (addr A : Z) :
  is_address a A -> read_ptr (write_ptr a addr A) addr = A.
Proof.
  unfold is_address. intros HA.
  destruct (Z_lt_le_dec (pointersize a) 0) as [Hneg | Hps].
  - rewrite Z.pow_neg_r in HA by lia. lia.
  - rewrite read_write_ptr by exact Hps. apply Z.mod_small, HA.
Qed.

(** * Return address: push, pop, unwind *)

Lemma stack_push_run (a : QlArch) (v : Z) :
  runState (stack_push v) a
  = (tt, write_ptr (set_sp a (arch_sp a - pointersize a))
                   (arch_sp a - pointersize a) v).
Proof. reflexivity. Qed.




Lemma call_and_return_result (cc : convention) (a : QlArch) (A n : Z) :
  result (call_and_return cc A n) a
  = read_ptr (write_ptr (set_sp a (arch_sp a - pointersize a))
                        (arch_sp a - pointersize a) A)
             (arch_sp a - pointersize a).
Proof. destruct cc; reflexivity. Qed.

Lemma call_and_return_sp (cc : convention) (a : QlArch) (A n : Z) :
  arch_sp (after (call_and_return cc A n) a)
  = match cc with
    | stdcall => wrap_word a (arch_sp a - pointersize a + pointersize a
                              + n * pointersize a)
    | _ => arch_sp a - pointersize a + pointersize a
    end.
Proof. destruct cc; reflexivity. Qed.

Lemma setReturnAddress_sp (cc : convention) (a : QlArch) (A : Z) :
  arch_sp (after (setReturnAddress cc A) a) = arch_sp a - pointersize a.
Proof. reflexivity. Qed.

(** C4: for every convention and every address [A],
    [setReturnAddress(A)] followed by [unwind(0)] returns [A]. *)
Theorem return_address_roundtrip :
  forall (cc : convention) (a : QlArch) (A : Z),
    is_address a A ->
    result (call_and_return cc A 0) a = A.
Proof.
  intros cc a A HA.
  rewrite call_and_return_result.
  apply (read_write_address (set_sp a (arch_sp a - pointersize a))).
  exact HA.
Qed.

Lemma return_address_roundtrip_witness :
  is_address (arch64 0x7ffe0000) 0x401000
  /\ result (call_and_return ms64 0x401000 0) (arch64 0x7ffe0000) = 0x401000.
Proof.
  assert (H : is_address (arch64 0x7ffe0000) 0x401000)
    by (unfold is_address; simpl; lia).
  split; [exact H | apply (return_address_roundtrip ms64 _ _ H)].
Defined.




(** C6, as the spec words it, fails: of the 16 bytes [unwind(3)]
    adds on a 4-byte-word context, 4 undo the push, so the stack
    pointer ends 12 bytes above its value before [setReturnAddress]. *)
Lemma stdcall_unwind3_sp_counterexample :
  pointersize (arch32 0x7000) = 4
  /\ result (call_and_return stdcall 0x401000 3) (arch32 0x7000) = 0x401000
  /\ arch_sp (after (call_and_return stdcall 0x401000 3) (arch32 0x7000))
     = arch_sp (arch32 0x7000) + 12
  /\ arch_sp (after (call_and_return stdcall 0x401000 3) (arch32 0x7000))
     <> arch_sp (arch32 0x7000) + 16.
Proof.
  split; [reflexivity | split; [reflexivity | split]];
    [reflexivity | discriminate].
Qed.


(** C6 (amended): for [stdcall] on a 4-byte-word architecture and
    every address [A], [setReturnAddress(A)] followed by [unwind(3)]
    returns [A] and leaves the stack pointer at its value immediately
    before [setReturnAddress] plus [3*4 = 12], kept modulo [2^32] as
    the register is 32 bits wide.  When the register does not wrap,
    that is [12] bytes higher than its value before [setReturnAddress]
    was called, which is [4 + 3*4 = 16] bytes higher than its value
    between the two calls. *)
Theorem stdcall_unwind3 :
  forall (a : QlArch) (A : Z),
    pointersize a = 4 ->
    is_address a A ->
    result (call_and_return stdcall A 3) a = A
    /\ arch_sp (after (call_and_return stdcall A 3) a)
       = (arch_sp a + 12) mod 2 ^ 32
    /\ (0 <= arch_sp a -> arch_sp a + 12 < 2 ^ 32 ->
        arch_sp (after (call_and_return stdcall A 3) a) = arch_sp a + 12)
    /\ (4 <= arch_sp a -> arch_sp a + 12 < 2 ^ 32 ->
        arch_sp (after (call_and_return stdcall A 3) a)
        = arch_sp (after (setReturnAddress stdcall A) a) + 16).
Proof.
  intros a A Hps HA.
  rewrite call_and_return_result, call_and_return_sp, setReturnAddress_sp.
  split.
  - apply (read_write_address (set_sp a (arch_sp a - pointersize a))).
    exact HA.
  - unfold wrap_word. rewrite Hps.
    replace (arch_sp a - 4 + 4 + 3 * 4) with (arch_sp a + 12) by lia.
    change (2 ^ (8 * 4)) with (2 ^ 32).
    split; [reflexivity | split].
    + intros Hlo Hhi. apply Z.mod_small. lia.
    + intros Hlo Hhi. rewrite Z.mod_small by lia. lia.
Qed.

Lemma stdcall_unwind3_witness :
  result (call_and_return stdcall 0x8048000 3) (arch32 0xbfff0000) = 0x8048000
  /\ arch_sp (after (call_and_return stdcall 0x8048000 3) (arch32 0xbfff0000))
     = 0xbfff0000 + 12
  /\ arch_sp (after (call_and_return stdcall 0x8048000 3) (arch32 0xfffffff8))
     = 0x4.
Proof.
  destruct (stdcall_unwind3 (arch32 0xbfff0000) 0x8048000)
    as (Hr & _ & Hs & _).
  - reflexivity.
  - unfold is_address. simpl. lia.
  - destruct (stdcall_unwind3 (arch32 0xfffffff8) 0x8048000)
      as (_ & Hwrap & _).
    + reflexivity.
    + unfold is_address. simpl. lia.
    + split; [exact Hr | split; [| exact Hwrap]].
      apply Hs; simpl; lia.
Defined.



(** * Raw parameter access on 32-bit conventions *)

Lemma get_raw_Intel32_64 (cc : convention) (base : Z -> option Z -> Z)
    (s : Z) :
  parent cc = Intel32 ->
  get_raw cc base s 64
  = Z.lor (Z.shiftl (base (s + 1) None) 32) (base s None).
Proof.
  intros Hp. unfold get_raw, getRawParam. rewrite Hp. reflexivity.
Qed.

Lemma get_raw_Intel32_other (cc : convention) (base : Z -> option Z -> Z)
    (s w : Z) :
  parent cc = Intel32 -> w <> 64 ->
  get_raw cc base s w = base s (Some w).
Proof.
  intros Hp Hw. unfold get_raw, getRawParam, QlIntel32.getRawParam.
  rewrite Hp. apply Z.eqb_neq in Hw. rewrite Hw. reflexivity.
Qed.

Lemma get_raw_accesses_Intel32_other (cc : convention)
    (base : Z -> option Z -> Z) (s w : Z) :
  parent cc = Intel32 -> w <> 64 ->
  get_raw_accesses cc base s w = [(s, Some w)].
Proof.
  intros Hp Hw.
  unfold get_raw_accesses, getRawParam, QlIntel32.getRawParam.
  rewrite Hp. apply Z.eqb_neq in Hw. rewrite Hw. reflexivity.
Qed.

Lemma wordsize_32_parent (cc : convention) :
  wordsize cc = 32 -> parent cc = Intel32.
Proof. destruct cc; simpl; intros H; try reflexivity; discriminate H. Qed.

(** Under the modelled inherited accessor, a read that leaves the
    width out is the 32-bit read, on every 4-byte-word context: the
    32-bit conventions pass nothing in registers and a native stack
    word has 32 bits. *)
Lemma native_read_is_32bit (cc : convention) (a : QlArch) (s : Z) :
  wordsize cc = 32 -> pointersize a = 4 ->
  QlCommonBaseCC.getRawParam cc a s None
  = QlCommonBaseCC.getRawParam cc a s (Some 32).
Proof.
  intros Hws Hps. unfold QlCommonBaseCC.getRawParam.
  assert (Hregs : _argregs cc = [])
    by (destruct cc; try reflexivity; discriminate Hws).
  rewrite Hregs.
  replace (if 0 <=? s then nth_error [] (Z.to_nat s) else None)
    with (@None x86_reg)
    by (destruct (0 <=? s); [destruct (Z.to_nat s) |]; reflexivity).
  unfold QlCommonBaseCC.stack_read.
  symmetry. apply Z.mod_small.
  pose proof (read_ptr_range a
    (arch_sp a + (_shadow cc + (s - Z.of_nat (length (@nil x86_reg))))
                 * _asize a)) as H.
  rewrite Hps in H. apply H. lia.
Qed.

Lemma get_raw_64_split (cc : convention) (base : Z -> option Z -> Z)
    (s : Z) :
  parent cc = Intel32 ->
  base s None = base s (Some 32) ->
  base (s + 1) None = base (s + 1) (Some 32) ->
  get_raw cc base s 64
  = Z.lor (Z.shiftl (get_raw cc base (s + 1) 32) 32) (get_raw cc base s 32).
Proof.
  intros Hp Hlo Hhi.
  rewrite get_raw_Intel32_64 by exact Hp.
  rewrite !get_raw_Intel32_other by (exact Hp || discriminate).
  rewrite Hlo, Hhi. reflexivity.
Qed.

(** C1: on a 32-bit convention ([cdecl], [stdcall]), for any slot
    [s], [getRawParam(s, 64)] is
    [(getRawParam(s+1, 32) << 32) | getRawParam(s, 32)]: the base
    accessor is called at slot [s] first, then at slot [s+1], and the
    two words are combined; for any other width the call goes straight
    to the base accessor at that width.  The source leaves the width
    out of the two base calls, so the equation holds over every base
    accessor that reads a 32-bit word when no width is given, and in
    particular over the inherited accessor on a 4-byte-word context. *)
Theorem getRawParam_64_split :
  forall (cc : convention) (s : Z),
    wordsize cc = 32 ->
    (forall base : Z -> option Z -> Z,
        (base s None = base s (Some 32) ->
         base (s + 1) None = base (s + 1) (Some 32) ->
         get_raw cc base s 64
         = Z.lor (Z.shiftl (get_raw cc base (s + 1) 32) 32)
                 (get_raw cc base s 32))
        /\ get_raw_accesses cc base s 64 = [(s, None); (s + 1, None)]
        /\ (forall w : Z, w <> 64 ->
              get_raw cc base s w = base s (Some w)
              /\ get_raw_accesses cc base s w = [(s, Some w)]))
    /\ (forall a : QlArch,
          pointersize a = 4 ->
          get_raw cc (QlCommonBaseCC.getRawParam cc a) s 64
          = Z.lor
              (Z.shiftl
                 (get_raw cc (QlCommonBaseCC.getRawParam cc a) (s + 1) 32)
                 32)
              (get_raw cc (QlCommonBaseCC.getRawParam cc a) s 32)).
Proof.
  intros cc s Hws.
  pose proof (wordsize_32_parent cc Hws) as Hp.
  split.
  - intros base. split; [| split].
    + apply get_raw_64_split. exact Hp.
    + unfold get_raw_accesses, getRawParam. rewrite Hp. reflexivity.
    + intros w Hw. split.
      * apply get_raw_Intel32_other; assumption.
      * apply get_raw_accesses_Intel32_other; assumption.
  - intros a Hps.
    apply get_raw_64_split;
      [exact Hp | apply native_read_is_32bit; assumption ..].
Qed.

Lemma getRawParam_64_split_witness :
  get_raw cdecl (QlCommonBaseCC.getRawParam cdecl stack_ctx) 0 64
  = 0x1122334455667788
  /\ get_raw_accesses cdecl (QlCommonBaseCC.getRawParam cdecl stack_ctx) 0 64
     = [(0, None); (1, None)].
Proof.
  destruct (getRawParam_64_split cdecl 0) as (Hgen & Hctx).
  - reflexivity.
  - destruct (Hgen (QlCommonBaseCC.getRawParam cdecl stack_ctx))
      as (_ & Hacc & _).
    split; [| exact Hacc].
    rewrite (Hctx stack_ctx) by reflexivity.
    vm_compute. reflexivity.
Defined.

(** * Argument-register tables *)

(** C8: the register lists have these lengths: [ms64] 4, [amd64]
    6, [macosx64] 6, [cdecl] and [stdcall] 0. *)
Theorem argregs_lengths :
  length (_argregs ms64) = 4%nat
  /\ length (_argregs amd64) = 6%nat
  /\ length (_argregs macosx64) = 6%nat
  /\ length (_argregs cdecl) = 0%nat
  /\ length (_argregs stdcall) = 0%nat.
Proof. repeat split. Qed.

(** C9: the fourth argument register (index 3) of [macosx64]
    differs from the fourth argument register of [amd64]. *)
Theorem fourth_argreg_differs :
  exists r_mac r_amd : x86_reg,
    nth_error (_argregs macosx64) 3 = Some r_mac
    /\ nth_error (_argregs amd64) 3 = Some r_amd
    /\ r_mac <> r_amd.
Proof.
  exists UC_X86_REG_RCX, UC_X86_REG_R10.
  split; [reflexivity | split; [reflexivity | discriminate]].
Qed.

(** C10: the register lists of [amd64] and [macosx64] agree at
    every index but 3: both are (RDI, RSI, RDX, _, R8, R9), with R10 at
    index 3 for [amd64] and RCX at index 3 for [macosx64]. *)
Theorem argregs_amd64_macosx64 :
  _argregs amd64
  = [UC_X86_REG_RDI; UC_X86_REG_RSI; UC_X86_REG_RDX;
     UC_X86_REG_R10; UC_X86_REG_R8; UC_X86_REG_R9]
  /\ _argregs macosx64
     = [UC_X86_REG_RDI; UC_X86_REG_RSI; UC_X86_REG_RDX;
        UC_X86_REG_RCX; UC_X86_REG_R8; UC_X86_REG_R9]
  /\ (forall i : nat, i <> 3%nat ->
        nth_error (_argregs amd64) i = nth_error (_argregs macosx64) i).
Proof.
  split; [reflexivity | split; [reflexivity |]].
  intros i Hi.
  do 4 (destruct i as [|i]; [try reflexivity; contradiction |]).
  reflexivity.
Qed.

Lemma argregs_amd64_macosx64_witness :
  nth_error (_argregs amd64) 4 = nth_error (_argregs macosx64) 4.
Proof.
  destruct argregs_amd64_macosx64 as (_ & _ & Hsame).
  apply (Hsame 4%nat). discriminate.
Defined.

(** * Further properties of the slot arithmetic *)

(** X1: a wider argument never takes fewer slots. *)
Theorem getNumSlots_monotone :
  forall (cc : convention) (w1 w2 : Z),
    w1 <= w2 -> getNumSlots cc w1 <= getNumSlots cc w2.
Proof.
  intros cc w1 w2 Hw.
  rewrite !getNumSlots_wordsize.
  apply Z.div_le_mono; [apply wordsize_pos | lia].
Qed.

Lemma getNumSlots_monotone_witness :
  getNumSlots cdecl 40 <= getNumSlots cdecl 100.
Proof.
  apply (getNumSlots_monotone cdecl 40 100). lia.
Defined.

(** X2: from one word up, the slots counted are the whole words
    that fit in the width: they never hold more bits than the width,
    and one slot more would. *)
Theorem getNumSlots_whole_words :
  forall (cc : convention) (w : Z),
    wordsize cc <= w ->
    getNumSlots cc w * wordsize cc <= w
    /\ w < (getNumSlots cc w + 1) * wordsize cc.
Proof.
  intros cc w Hw.
  pose proof (wordsize_pos cc) as Hpos.
  rewrite getNumSlots_wordsize, Z.max_l by lia.
  pose proof (Z.mul_div_le w (wordsize cc) Hpos).
  pose proof (Z.mul_succ_div_gt w (wordsize cc) Hpos).
  split; lia.
Qed.

Lemma getNumSlots_whole_words_witness :
  getNumSlots cdecl 80 * wordsize cdecl <= 80
  /\ 80 < (getNumSlots cdecl 80 + 1) * wordsize cdecl.
Proof.
  apply (getNumSlots_whole_words cdecl 80). unfold wordsize, parent. lia.
Defined.

(** X3: a width of [k] whole words, [k >= 1], takes exactly [k]
    slots. *)
Theorem getNumSlots_multiple :
  forall (cc : convention) (k : Z),
    1 <= k -> getNumSlots cc (k * wordsize cc) = k.
Proof.
  intros cc k Hk.
  pose proof (wordsize_pos cc) as Hpos.
  rewrite getNumSlots_wordsize, Z.max_l by nia.
  apply Z.div_mul. lia.
Qed.

Lemma getNumSlots_multiple_witness :
  getNumSlots ms64 (2 * wordsize ms64) = 2.
Proof.
  apply (getNumSlots_multiple ms64 2). lia.
Defined.

(** X4: for one width, a 32-bit convention takes at least as many
    slots as a 64-bit one.  From 64 bits up it takes exactly twice as
    many, plus one exactly when the width leaves 32 bits or more over
    a multiple of 64; below 64 bits both take one slot. *)
Theorem getNumSlots_32_vs_64 :
  forall w : Z,
    QlIntel64.getNumSlots w <= QlIntel32.getNumSlots w
    /\ (64 <= w ->
        QlIntel32.getNumSlots w
        = 2 * QlIntel64.getNumSlots w
          + (if 32 <=? w mod 64 then 1 else 0))
    /\ (w < 64 ->
        QlIntel64.getNumSlots w = 1 /\ QlIntel32.getNumSlots w = 1).
Proof.
  intros w. unfold QlIntel64.getNumSlots, QlIntel32.getNumSlots.
  assert (Hsmall : w < 64 -> Z.max w 64 / 64 = 1 /\ Z.max w 32 / 32 = 1)
    by (intros Hw; split; apply max_div_small; lia).
  assert (Hbig : 64 <= w ->
            Z.max w 32 / 32
            = 2 * (Z.max w 64 / 64) + (if 32 <=? w mod 64 then 1 else 0)).
  { intros Hw. rewrite !Z.max_l by lia.
    pose proof (Z.div_mod w 64 ltac:(lia)) as Hdm.
    pose proof (Z.mod_pos_bound w 64 ltac:(lia)) as Hr.
    set (q := w / 64) in *. set (r := w mod 64) in *.
    destruct (Z.leb_spec 32 r) as [Hge | Hlt].
    - symmetry. apply (Z.div_unique _ _ _ (r - 32)); lia.
    - symmetry. apply (Z.div_unique _ _ _ r); lia. }
  split; [| split; [exact Hbig | exact Hsmall]].
  destruct (Z_lt_le_dec w 64) as [Hw | Hw].
  - destruct (Hsmall Hw) as [H64 H32]. lia.
  - rewrite (Hbig Hw).
    pose proof (max_div_lower w 64 ltac:(lia)).
    destruct (32 <=? w mod 64); lia.
Qed.

Lemma getNumSlots_32_vs_64_witness :
  QlIntel32.getNumSlots 96 = 2 * QlIntel64.getNumSlots 96 + 1
  /\ QlIntel32.getNumSlots 128 = 2 * QlIntel64.getNumSlots 128 + 0.
Proof.
  destruct (getNumSlots_32_vs_64 96) as (_ & H96 & _).
  destruct (getNumSlots_32_vs_64 128) as (_ & H128 & _).
  split; [apply H96 | apply H128]; lia.
Defined.

(** * Further properties of the raw parameter access *)

Lemma land_shiftl_low (hi lo : Z) :
  0 <= lo < 2 ^ 32 -> Z.land (Z.shiftl hi 32) lo = 0.
Proof.
  intros Hlo. apply Z.bits_inj'. intros n Hn.
  rewrite Z.land_spec, Z.bits_0.
  destruct (Z_lt_le_dec n 32) as [Hlt | Hge].
  - rewrite Z.shiftl_spec_low by exact Hlt. reflexivity.
  - rewrite <- (Z.mod_small lo (2 ^ 32)) by exact Hlo.
    rewrite Z.mod_pow2_bits_high by lia. apply andb_false_r.
Qed.

Lemma lor_shiftl_add (hi lo : Z) :
  0 <= lo < 2 ^ 32 -> Z.lor (Z.shiftl hi 32) lo = hi * 2 ^ 32 + lo.
Proof.
  intros Hlo.
  rewrite <- Z.lxor_lor by (apply land_shiftl_low; exact Hlo).
  rewrite <- Z.add_nocarry_lxor by (apply land_shiftl_low; exact Hlo).
  rewrite Z.shiftl_mul_pow2 by lia. reflexivity.
Qed.

(** X5: on a 32-bit convention, when the two words read are
    32-bit values, [getRawParam(s, 64)] is [hi * 2^32 + lo]: a 64-bit
    value whose low half is the word at slot [s] and whose high half is
    the word at slot [s+1]. *)
Theorem getRawParam_64_value :
  forall (cc : convention) (base : Z -> option Z -> Z) (s : Z),
    wordsize cc = 32 ->
    0 <= base s None < 2 ^ 32 ->
    0 <= base (s + 1) None < 2 ^ 32 ->
    get_raw cc base s 64 = base (s + 1) None * 2 ^ 32 + base s None
    /\ 0 <= get_raw cc base s 64 < 2 ^ 64
    /\ get_raw cc base s 64 mod 2 ^ 32 = base s None
    /\ get_raw cc base s 64 / 2 ^ 32 = base (s + 1) None.
Proof.
  intros cc base s Hws Hlo Hhi.
  rewrite get_raw_Intel32_64 by (apply wordsize_32_parent; exact Hws).
  rewrite lor_shiftl_add by exact Hlo.
  split; [reflexivity | split; [| split]].
  - change (2 ^ 64) with (2 ^ 32 * 2 ^ 32). nia.
  - rewrite Z.add_comm, Z.mod_add by lia. apply Z.mod_small, Hlo.
  - rewrite Z.add_comm, Z.div_add by lia.
    rewrite Z.div_small by exact Hlo. reflexivity.
Qed.

Lemma getRawParam_64_value_witness :
  get_raw stdcall (QlCommonBaseCC.getRawParam stdcall stack_ctx) 0 64
  = 0x11223344 * 2 ^ 32 + 0x55667788.
Proof.
  destruct (getRawParam_64_value stdcall
              (QlCommonBaseCC.getRawParam stdcall stack_ctx) 0)
    as (Hval & _).
  - reflexivity.
  - vm_compute. split; [discriminate | reflexivity].
  - vm_compute. split; [discriminate | reflexivity].
  - rewrite Hval. vm_compute. reflexivity.
Defined.

(** X6: the 64-bit read does not mask the word it reads at slot
    [s]: whatever the base accessor returns, the low 32 bits of the
    result are those of the word at [s], and the bits above are the
    word at [s+1] or-ed with the bits of the word at [s] from bit 32
    up. *)
Theorem getRawParam_64_halves :
  forall (cc : convention) (base : Z -> option Z -> Z) (s : Z),
    wordsize cc = 32 ->
    Z.land (get_raw cc base s 64) (Z.ones 32)
    = Z.land (base s None) (Z.ones 32)
    /\ Z.shiftr (get_raw cc base s 64) 32
       = Z.lor (base (s + 1) None) (Z.shiftr (base s None) 32).
Proof.
  intros cc base s Hws.
  rewrite get_raw_Intel32_64 by (apply wordsize_32_parent; exact Hws).
  split.
  - rewrite Z.land_lor_distr_l.
    replace (Z.land (Z.shiftl (base (s + 1) None) 32) (Z.ones 32)) with 0.
    + apply Z.lor_0_l.
    + rewrite Z.land_ones, Z.shiftl_mul_pow2 by lia.
      symmetry. apply Z.mod_mul. lia.
  - rewrite Z.shiftr_lor, Z.shiftr_shiftl_l by lia.
    rewrite Z.sub_diag, Z.shiftl_0_r. reflexivity.
Qed.

Lemma getRawParam_64_halves_witness :
  Z.shiftr (get_raw cdecl (fun _ _ => 0x1aabbccdd) 0 64) 32
  = Z.lor 0x1aabbccdd (Z.shiftr 0x1aabbccdd 32).
Proof.
  apply (getRawParam_64_halves cdecl (fun _ _ => 0x1aabbccdd) 0).
  reflexivity.
Defined.

(** X7: [getRawParam(s, w)] calls the base accessor at slot
    [s+1] exactly when the convention is a 32-bit one and [w] is 64;
    a 64-bit convention reads a 64-bit argument from slot [s] alone. *)
Theorem getRawParam_second_slot :
  forall (cc : convention) (base : Z -> option Z -> Z) (s w : Z),
    In (s + 1) (map fst (get_raw_accesses cc base s w))
    <-> (wordsize cc = 32 /\ w = 64).
Proof.
  intros cc base s w.
  destruct (parent cc) eqn:Hp.
  - assert (Hacc : get_raw_accesses cc base s w = [(s, Some w)])
      by (unfold get_raw_accesses, getRawParam; rewrite Hp; reflexivity).
    assert (Hws : wordsize cc = 64) by (unfold wordsize; rewrite Hp; reflexivity).
    rewrite Hacc, Hws. simpl. split.
    + intros [H | []]. lia.
    + intros [H _]. discriminate H.
  - assert (Hws : wordsize cc = 32) by (unfold wordsize; rewrite Hp; reflexivity).
    destruct (Z.eq_dec w 64) as [-> | Hw].
    + assert (Hacc : get_raw_accesses cc base s 64 = [(s, None); (s + 1, None)])
        by (unfold get_raw_accesses, getRawParam; rewrite Hp; reflexivity).
      rewrite Hacc. simpl. split; [intros _; split; [exact Hws | reflexivity] |].
      intros _. right. left. reflexivity.
    + rewrite get_raw_accesses_Intel32_other by assumption.
      simpl. split.
      * intros [H | []]. lia.
      * intros [_ H]. contradiction.
Qed.

(** * Further properties of the return-address handling *)

Lemma load_store_le_disjoint (m : Z -> byte) (addr n v : Z) (k : nat) :
  forall addr',
    addr' + Z.of_nat k <= addr \/ addr + n <= addr' ->
    load_le (store_le m addr n v) addr' k = load_le m addr' k.
Proof.
  induction k as [|k IH]; intros addr' Hd.
  - reflexivity.
  - cbn [load_le]. rewrite IH by lia.
    unfold store_le at 1.
    replace ((addr <=? addr') && (addr' <? addr + n)) with false.
    + reflexivity.
    + symmetry. apply andb_false_iff.
      destruct Hd as [Hd | Hd];
        [left; apply Z.leb_gt | right; apply Z.ltb_ge]; lia.
Qed.

Lemma load_le_app (m : Z -> byte) (n k : nat) :
  forall addr,
    load_le m addr (n + k)
    = load_le m addr n
      + 2 ^ (8 * Z.of_nat n) * load_le m (addr + Z.of_nat n) k.
Proof.
  induction n as [|n IH]; intros addr.
  - simpl. rewrite Z.add_0_r. destruct (load_le m addr k); reflexivity.
  - cbn [load_le Nat.add]. rewrite IH.
    replace (addr + 1 + Z.of_nat n) with (addr + Z.of_nat (S n)) by lia.
    replace (8 * Z.of_nat (S n)) with (8 + 8 * Z.of_nat n) by lia.
    rewrite Z.pow_add_r by lia. change (2 ^ 8) with 256. ring.
Qed.

(** X10: for every convention, every count [nslots] and every
    address [A], [setReturnAddress(A)] followed by [unwind(nslots)]
    returns [A].  Under [stdcall] the stack-pointer register ends at
    its starting value plus [nslots] slots, kept modulo the register
    width, which is the plain sum when the sum fits the register;
    under the four other conventions it ends at its starting value. *)
Theorem call_and_return_net :
  forall (cc : convention) (a : QlArch) (A nslots : Z),
    is_address a A ->
    result (call_and_return cc A nslots) a = A
    /\ arch_sp (after (call_and_return cc A nslots) a)
       = match cleanup cc with
         | CalleeCleanup =>
             (arch_sp a + nslots * _asize a) mod 2 ^ (8 * pointersize a)
         | CallerCleanup => arch_sp a
         end
    /\ (cleanup cc = CalleeCleanup ->
        0 <= arch_sp a + nslots * _asize a < 2 ^ (8 * pointersize a) ->
        arch_sp (after (call_and_return cc A nslots) a)
        = arch_sp a + nslots * _asize a).
Proof.
  intros cc a A nslots HA.
  assert (Hsp : arch_sp (after (call_and_return cc A nslots) a)
                = match cleanup cc with
                  | CalleeCleanup =>
                      (arch_sp a + nslots * _asize a)
                      mod 2 ^ (8 * pointersize a)
                  | CallerCleanup => arch_sp a
                  end).
  { rewrite call_and_return_sp. unfold _asize, wrap_word.
    destruct cc; simpl; try lia. f_equal. lia. }
  split; [| split; [exact Hsp |]].
  - rewrite call_and_return_result.
    apply (read_write_address (set_sp a (arch_sp a - pointersize a))).
    exact HA.
  - intros Hcc Hfit. rewrite Hsp, Hcc. apply Z.mod_small, Hfit.
Qed.

Lemma call_and_return_net_witness :
  result (call_and_return stdcall 0x8048000 5) (arch32 0xbfff0000) = 0x8048000
  /\ arch_sp (after (call_and_return stdcall 0x8048000 5) (arch32 0xbfff0000))
     = 0xbfff0000 + 5 * 4
  /\ arch_sp (after (call_and_return stdcall 0x8048000 5) (arch32 0xfffffff0))
     = 0x4.
Proof.
  destruct (call_and_return_net stdcall (arch32 0xbfff0000) 0x8048000 5)
    as (Hr & _ & Hs).
  - unfold is_address. simpl. lia.
  - destruct (call_and_return_net stdcall (arch32 0xfffffff0) 0x8048000 5)
      as (_ & Hwrap & _).
    + unfold is_address. simpl. lia.
    + split; [exact Hr | split; [| exact Hwrap]].
      apply Hs; [reflexivity | simpl; lia].
Defined.



Lemma nested_calls_result (cc : convention) (a : QlArch) (A B n : Z) :
  result (nested_calls cc A B n) a
  = (let a1 := write_ptr a (arch_sp a - pointersize a) A in
     let a2 := write_ptr a1 (arch_sp a - pointersize a - pointersize a) B in
     (read_ptr a2 (arch_sp a - pointersize a - pointersize a),
      read_ptr a2 (arch_sp a - pointersize a))).
Proof.
  destruct a as [ps sp rg m].
  assert (Haddr : forall M : Z,
            (sp - ps - ps + ps) mod M = (sp - ps) mod M)
    by (intros M; f_equal; lia).
  destruct cc; unfold result, nested_calls; cbn;
    unfold read_ptr, write_ptr, write_sp, set_sp, set_mem, wrap_word;
    cbn [mem pointersize arch_sp];
    rewrite ?Z.add_0_r, ?Zmod_mod, ?Haddr; reflexivity.
Qed.

Lemma wrap_word_set_mem (a : QlArch) (m : Z -> byte) (v : Z) :
  wrap_word (set_mem a m) v = wrap_word a v.
Proof. reflexivity. Qed.

Lemma wrap_word_step_disjoint (a : QlArch) (s : Z) :
  0 <= pointersize a ->
  wrap_word a (s - pointersize a) + pointersize a <= wrap_word a s
  \/ wrap_word a s + pointersize a <= wrap_word a (s - pointersize a).
Proof.
  intros Hps. unfold wrap_word.
  set (p := pointersize a) in *.
  assert (HM : 2 * p <= 2 ^ (8 * p)).
  { destruct (Z.eq_dec p 0) as [-> | Hnz]; [simpl; lia |].
    pose proof (Z.pow_gt_lin_r 2 (8 * p) ltac:(lia) ltac:(lia)). lia. }
  assert (Hpos : 0 < 2 ^ (8 * p)) by (apply Z.pow_pos_nonneg; lia).
  set (M := 2 ^ (8 * p)) in *.
  pose proof (Z.mod_pos_bound s M Hpos) as Hs.
  pose proof (Z.mod_pos_bound (s - p) M Hpos) as Hsp.
  destruct (Z_le_gt_dec p (s mod M)) as [Hle | Hgt].
  - left.
    assert (E : (s - p) mod M = s mod M - p).
    { symmetry. apply (Z.mod_unique _ _ (s / M)); [lia |].
      pose proof (Z.div_mod s M ltac:(lia)). lia. }
    lia.
  - right.
    assert (E : (s - p) mod M = s mod M - p + M).
    { symmetry. apply (Z.mod_unique _ _ (s / M - 1)); [lia |].
      pose proof (Z.div_mod s M ltac:(lia)). lia. }
    lia.
Qed.

(** X12: return addresses come back last in, first out: after
    [setReturnAddress(A)] and [setReturnAddress(B)], the first [unwind]
    returns [B] and the second returns [A]. *)
Theorem nested_calls_lifo :
  forall (cc : convention) (a : QlArch) (A B nslots : Z),
    is_address a A ->
    is_address a B ->
    result (nested_calls cc A B nslots) a = (B, A).
Proof.
  intros cc a A B nslots HA HB.
  rewrite nested_calls_result. cbv zeta.
  assert (Hps : 0 <= pointersize a).
  { destruct (Z_lt_le_dec (pointersize a) 0) as [Hneg | Hps]; [| exact Hps].
    unfold is_address in HA. rewrite Z.pow_neg_r in HA by lia. lia. }
  f_equal.
  - apply read_write_address. exact HB.
  - unfold read_ptr, write_ptr. cbn [mem pointersize set_mem].
    rewrite !wrap_word_set_mem.
    rewrite load_store_le_disjoint.
    + apply (read_write_address a (arch_sp a - pointersize a) A HA).
    + rewrite Z2Nat.id by exact Hps.
      pose proof (wrap_word_step_disjoint a (arch_sp a - pointersize a) Hps).
      lia.
Qed.

Lemma nested_calls_lifo_witness :
  result (nested_calls cdecl 0x8048000 0x8049000 2) (arch32 0xbfff0000)
  = (0x8049000, 0x8048000).
Proof.
  apply (nested_calls_lifo cdecl (arch32 0xbfff0000)).
  - unfold is_address. simpl. lia.
  - unfold is_address. simpl. lia.
Defined.

(** * Slots read and slots counted; the register tables *)

(** X9: on a 32-bit convention, when the base accessor reads
    the 4-byte little-endian words at [p] and [p + 4] for slots [s] and
    [s+1], [getRawParam(s, 64)] is the 8-byte little-endian value
    stored at [p]. *)
Theorem getRawParam_64_le_load :
  forall (cc : convention) (base : Z -> option Z -> Z)
         (m : Z -> byte) (p s : Z),
    wordsize cc = 32 ->
    base s None = load_le m p 4 ->
    base (s + 1) None = load_le m (p + 4) 4 ->
    get_raw cc base s 64 = load_le m p 8.
Proof.
  intros cc base m p s Hws Hlo Hhi.
  rewrite get_raw_Intel32_64 by (apply wordsize_32_parent; exact Hws).
  rewrite Hlo, Hhi.
  rewrite lor_shiftl_add by (apply (load_le_range m 4 p)).
  change 8%nat with (4 + 4)%nat. rewrite load_le_app.
  change (2 ^ (8 * Z.of_nat 4)) with (2 ^ 32).
  change (Z.of_nat 4) with 4. ring.
Qed.

Lemma getRawParam_64_le_load_witness :
  get_raw cdecl (QlCommonBaseCC.getRawParam cdecl stack_ctx) 0 64
  = load_le (mem stack_ctx) (arch_sp stack_ctx) 8.
Proof.
  apply (getRawParam_64_le_load cdecl _ (mem stack_ctx) (arch_sp stack_ctx) 0).
  - reflexivity.
  - vm_compute. reflexivity.
  - vm_compute. reflexivity.
Defined.

(** X8: [getRawParam] never calls the base accessor more than
    twice, and for every width up to 64 bits it reads exactly as many
    slots as [getNumSlots] counts for that width. *)
Theorem getRawParam_reads_getNumSlots :
  forall (cc : convention) (base : Z -> option Z -> Z) (s w : Z),
    (length (get_raw_accesses cc base s w) <= 2)%nat
    /\ (w <= 64 ->
        Z.of_nat (length (get_raw_accesses cc base s w)) = getNumSlots cc w).
Proof.
  intros cc base s w.
  destruct (parent cc) eqn:Hp.
  - assert (Hacc : get_raw_accesses cc base s w = [(s, Some w)])
      by (unfold get_raw_accesses, getRawParam; rewrite Hp; reflexivity).
    rewrite Hacc. split; [simpl; lia |].
    intros Hw. unfold getNumSlots. rewrite Hp.
    unfold QlIntel64.getNumSlots. rewrite max_div_small by lia. reflexivity.
  - destruct (Z.eq_dec w 64) as [-> | Hw].
    + assert (Hacc : get_raw_accesses cc base s 64
                     = [(s, None); (s + 1, None)])
        by (unfold get_raw_accesses, getRawParam; rewrite Hp; reflexivity).
      rewrite Hacc. split; [simpl; lia |].
      intros _. unfold getNumSlots. rewrite Hp. reflexivity.
    + rewrite get_raw_accesses_Intel32_other by assumption.
      split; [simpl; lia |].
      intros Hle. unfold getNumSlots. rewrite Hp.
      unfold QlIntel32.getNumSlots. rewrite max_div_small by lia.
      reflexivity.
Qed.

Lemma getRawParam_reads_getNumSlots_witness :
  Z.of_nat (length (get_raw_accesses stdcall (fun _ _ => 0) 3 64))
  = getNumSlots stdcall 64.
Proof.
  apply (getRawParam_reads_getNumSlots stdcall (fun _ _ => 0) 3 64). lia.
Defined.

(** X13: in every convention no register is listed for two
    argument slots. *)
Theorem argregs_NoDup :
  forall cc : convention, NoDup (_argregs cc).
Proof.
  intros cc.
  destruct cc; simpl; unfold make_arg_list;
    repeat (constructor; [simpl; intuition discriminate |]);
    constructor.
Qed.

(** X14: in every convention the return-value register is none
    of the argument registers. *)
Theorem retreg_not_argreg :
  forall cc : convention, ~ In (_retreg cc) (_argregs cc).
Proof.
  intros cc. destruct cc; simpl; intuition discriminate.
Qed.
